(** * A shallow embedding of [seg_tree::SegTree] (src/src/main.rs)

    The Rust tree stores its children as [Option<Rc<RefCell<SegTree>>>].
    Every child is created fresh by [build] and owned by exactly one
    parent, so no node is ever aliased: the tree is modelled as a plain
    inductive value and the [&mut self] methods as explicit state passing.

    [usize] is modelled by [N]: the only [usize] arithmetic of the code
    ([l + (r - l) / 2], [target_pos + 1] with [target_pos < range.1], and
    [r - l] with [l < r]) never overflows or underflows on the inputs the
    code reaches.  [i32] is modelled by [Z] together with the i32
    addition of the build profile: with overflow checks (debug profile)
    an overflowing [a + b] panics, without them (release profile) it wraps
    modulo 2^32. *)

From Stdlib Require Import ZArith NArith List Bool Lia.
Import ListNotations.

Open Scope Z_scope.

(** ** i32 arithmetic *)

Definition i32_min : Z := - 2 ^ 31.
Definition i32_max : Z := 2 ^ 31 - 1.

Definition in_i32 (z : Z) : bool := (i32_min <=? z) && (z <=? i32_max).

(** Two's-complement reduction of an integer into the i32 range. *)
Definition wrap_i32 (z : Z) : Z := (z + 2 ^ 31) mod 2 ^ 32 - 2 ^ 31.

(** The panics of the program, plus the overflow panic of [+] on i32 in
    the debug profile. *)
Inductive panic : Type :=
| InvalidRange        (* "Invalid range: left bound must be less than right bound" *)
| IndexOutOfRange     (* "Target index out of range" *)
| InvalidQueryRange   (* "Invalid query range" *)
| Overflow.           (* "attempt to add with overflow" *)

Inductive result (A : Type) : Type :=
| Ok (a : A)
| Err (e : panic).
Arguments Ok {A} a.
Arguments Err {A} e.

Inductive profile : Type := Debug | Release.

(** [a + b] on two [i32] values. *)
Definition add_i32 (p : profile) (a b : Z) : result Z :=
  match p with
  | Release => Ok (wrap_i32 (a + b))
  | Debug => if in_i32 (a + b) then Ok (a + b) else Err Overflow
  end.

(** [SegTree::comb]: [a + b]. *)
Definition comb (p : profile) (a b : Z) : result Z := add_i32 p a b.

(** ** The tree *)

#[local] Set Warnings "-register-all".

Inductive SegTree : Type := mkSegTree {
  val : Z;
  range : N * N;
  mid : N;
  l_node : option SegTree;
  r_node : option SegTree
}.

(** [SegTree::build]; [None] means that the recursion has not finished
    within [fuel] nested calls. *)
Fixpoint build (fuel : nat) (l_bound r_bound : N) : option SegTree :=
  match fuel with
  | O => None
  | S fuel' =>
      if (r_bound - l_bound =? 1)%N then
        Some (mkSegTree 0 (l_bound, r_bound) l_bound None None)
      else
        let m := (l_bound + (r_bound - l_bound) / 2)%N in
        match build fuel' l_bound m with
        | None => None
        | Some lt =>
            match build fuel' m r_bound with
            | None => None
            | Some rt =>
                Some (mkSegTree 0 (l_bound, r_bound)
                        (l_bound + (r_bound - l_bound) / 2)%N
                        (Some lt) (Some rt))
            end
        end
  end.

(** [SegTree::new]; [None] means that the construction has not finished
    within [fuel] nested calls of [build]. *)
Definition new (fuel : nat) (l r : N) : option (result SegTree) :=
  if (r <=? l)%N then Some (Err InvalidRange)
  else
    let m := (l + (r - l) / 2)%N in
    match build fuel l m with
    | None => None
    | Some lt =>
        match build fuel m r with
        | None => None
        | Some rt =>
            Some (Ok (mkSegTree 0 (l, r) (l + (r - l) / 2)%N
                        (Some lt) (Some rt)))
        end
    end.

Definition val_or_0 (o : option SegTree) : Z :=
  match o with Some t => val t | None => 0 end.

(** [SegTree::revise] on [&mut self]: the tree after the call, and the
    panic that ended it if any (the mutations made before a panic stay). *)
Fixpoint revise (p : profile) (t : SegTree) (target_pos : N) (value : Z)
  : SegTree * option panic :=
  match t with
  | mkSegTree v (lo, hi) m ln rn =>
      if (target_pos <? lo)%N || (hi <=? target_pos)%N then
        (t, Some IndexOutOfRange)
      else if (target_pos =? lo)%N && (target_pos + 1 =? hi)%N then
        (mkSegTree value (lo, hi) m ln rn, None)
      else
        let '(ln', rn', e) :=
          if (target_pos <? m)%N then
            match ln with
            | Some left_node =>
                let '(left', e) := revise p left_node target_pos value in
                (Some left', rn, e)
            | None => (ln, rn, None)
            end
          else
            match rn with
            | Some right_node =>
                let '(right', e) := revise p right_node target_pos value in
                (ln, Some right', e)
            | None => (ln, rn, None)
            end in
        match e with
        | Some e => (mkSegTree v (lo, hi) m ln' rn', Some e)
        | None =>
            match comb p (val_or_0 ln') (val_or_0 rn') with
            | Ok x => (mkSegTree x (lo, hi) m ln' rn', None)
            | Err e => (mkSegTree v (lo, hi) m ln' rn', Some e)
            end
        end
  end.

(** [SegTree::ask]. *)
Fixpoint ask (p : profile) (t : SegTree) (l r : N) : result Z :=
  match t with
  | mkSegTree v (lo, hi) m ln rn =>
      if (r <=? l)%N || (l <? lo)%N || (hi <? r)%N then Err InvalidQueryRange
      else if (l =? lo)%N && (r =? hi)%N then Ok v
      else if (r <=? m)%N then
        match ln with Some left_node => ask p left_node l r | None => Ok 0 end
      else if (m <=? l)%N then
        match rn with Some right_node => ask p right_node l r | None => Ok 0 end
      else
        match (match ln with Some left_node => ask p left_node l m | None => Ok 0 end) with
        | Err e => Err e
        | Ok left_val =>
            match (match rn with Some right_node => ask p right_node m r | None => Ok 0 end) with
            | Err e => Err e
            | Ok right_val => add_i32 p left_val right_val
            end
        end
  end.

(** A sequence of [revise] calls, stopped by the first panic. *)
Fixpoint run_updates (p : profile) (t : SegTree) (ups : list (N * Z))
  : SegTree * option panic :=
  match ups with
  | [] => (t, None)
  | (i, v) :: rest =>
      match revise p t i v with
      | (t', None) => run_updates p t' rest
      | (t', Some e) => (t', Some e)
      end
  end.

(** The driver of [main] and of [test_ask]. *)
Definition demo_updates : list (N * Z) :=
  map (fun i => (i, Z.of_N i)) (map N.of_nat (seq 0 10)).

Definition demo_t0 : SegTree :=
  match new 20 0 10 with
  | Some (Ok t) => t
  | _ => mkSegTree 0 (0, 0)%N 0 None None
  end.

Definition demo_t (p : profile) : SegTree := fst (run_updates p demo_t0 demo_updates).

(** Updates whose sums leave the i32 range. *)
Definition overflow_updates : list (N * Z) := [(0%N, i32_max); (1%N, 1)].

Definition partial_overflow_updates : list (N * Z) :=
  [(2%N, i32_min); (0%N, i32_max); (1%N, 1)].

(** ** Reading the tree *)

(** The value of the leaf that covers index [i]. *)
Fixpoint leafval (t : SegTree) (i : N) : Z :=
  match t with
  | mkSegTree _ _ m (Some lt) (Some rt) =>
      if (i <? m)%N then leafval lt i else leafval rt i
  | mkSegTree v _ _ _ _ => v
  end.

(** [f a + f (a+1) + ... + f (a+n-1)]. *)
Fixpoint sum_nat (f : N -> Z) (a : N) (n : nat) : Z :=
  match n with
  | O => 0
  | S n' => f a + sum_nat f (a + 1)%N n'
  end.

(** The sum of [f] over the half-open interval [[a, b)]. *)
Definition range_sum (f : N -> Z) (a b : N) : Z := sum_nat f a (N.to_nat (b - a)).

(** The value most recently given to index [j] by a sequence of updates,
    [d] when it is never updated. *)
Fixpoint last_set (ups : list (N * Z)) (j : N) (d : Z) : Z :=
  match ups with
  | [] => d
  | (k, w) :: rest => last_set rest j (if (k =? j)%N then w else d)
  end.

Definition in_interval (i : N) (rg : N * N) : bool :=
  let '(lo, hi) := rg in (lo <=? i)%N && (i <? hi)%N.

(** The property [P v l r] of every node with two children, [v] its value
    and [l], [r] those of its children. *)
Fixpoint all_internal (P : Z -> Z -> Z -> Prop) (t : SegTree) : Prop :=
  match t with
  | mkSegTree v _ _ (Some lt) (Some rt) =>
      P v (val lt) (val rt) /\ all_internal P lt /\ all_internal P rt
  | mkSegTree _ _ _ _ _ => True
  end.

(** The property [P] of the value of every node. *)
Fixpoint all_vals (P : Z -> Prop) (t : SegTree) : Prop :=
  match t with
  | mkSegTree v _ _ ln rn =>
      P v /\ match ln with Some lt => all_vals P lt | None => True end
          /\ match rn with Some rt => all_vals P rt | None => True end
  end.

(** The tree without its values: intervals, split points and children. *)
Inductive Shape : Type := mkShape (rg : N * N) (m : N) (l r : option Shape).

Fixpoint shape (t : SegTree) : Shape :=
  match t with
  | mkSegTree _ rg m ln rn =>
      mkShape rg m
        (match ln with Some lt => Some (shape lt) | None => None end)
        (match rn with Some rt => Some (shape rt) | None => None end)
  end.

(** [t'] differs from [t] only in the values of nodes whose interval
    contains [i]: a node whose interval does not contain [i] is unchanged
    together with its subtree, and every node keeps its interval, split
    point and children. *)
Fixpoint frame (i : N) (t t' : SegTree) {struct t} : Prop :=
  match t, t' with
  | mkSegTree _ rg m ln rn, mkSegTree _ rg' m' ln' rn' =>
      rg' = rg /\ m' = m /\
      if in_interval i rg then
        match ln, ln' with
        | Some a, Some a' => frame i a a'
        | None, None => True
        | _, _ => False
        end /\
        match rn, rn' with
        | Some a, Some a' => frame i a a'
        | None, None => True
        | _, _ => False
        end
      else t' = t
  end.

(** Whether the interval of an optional child contains [i]. *)
Definition covers (i : N) (o : option SegTree) : bool :=
  match o with Some t => in_interval i (range t) | None => false end.

(** No node has two children whose intervals both contain [i]: the nodes
    containing [i] form a single path from the root. *)
Fixpoint single_path (i : N) (t : SegTree) : Prop :=
  match t with
  | mkSegTree _ _ _ ln rn =>
      covers i ln && covers i rn = false /\
      match ln with Some lt => single_path i lt | None => True end /\
      match rn with Some rt => single_path i rt | None => True end
  end.

(** [SegTree::get_val] and [SegTree::get_range]. *)
Definition get_val (t : SegTree) : Z := val t.
Definition get_range (t : SegTree) : N * N := range t.

(** The number of nodes of a tree. *)
Fixpoint count_nodes (t : SegTree) : N :=
  match t with
  | mkSegTree _ _ _ ln rn =>
      1 + match ln with Some lt => count_nodes lt | None => 0 end
        + match rn with Some rt => count_nodes rt | None => 0 end
  end%N.

(** The trees the program can hold: built by [new] over [[lo, hi)], then
    changed by a sequence of [revise] calls that all returned. *)
Definition reachable (p : profile) (lo hi : N) (t : SegTree) : Prop :=
  exists fuel t0 ups,
    new fuel lo hi = Some (Ok t0) /\
    Forall (fun u => in_i32 (snd u) = true) ups /\
    run_updates p t0 ups = (t, None).

(** The shape [build] gives to [[lo, hi)], with the values the code keeps
    in it: i32 leaves, and every internal node holding the [comb] of its
    children. *)
Inductive good (p : profile) : N -> N -> SegTree -> Prop :=
| good_leaf lo v :
    in_i32 v = true ->
    good p lo (lo + 1)%N (mkSegTree v (lo, lo + 1)%N lo None None)
| good_node lo hi v lt rt :
    (lo + 1 < hi)%N ->
    good p lo (lo + (hi - lo) / 2)%N lt ->
    good p (lo + (hi - lo) / 2)%N hi rt ->
    comb p (val lt) (val rt) = Ok v ->
    good p lo hi (mkSegTree v (lo, hi) (lo + (hi - lo) / 2)%N (Some lt) (Some rt)).

(** ** i32 facts *)

Lemma wrap_i32_add (a b : Z) : wrap_i32 (wrap_i32 a + wrap_i32 b) = wrap_i32 (a + b).
Proof.
  unfold wrap_i32. assert (HM : 2 ^ 32 <> 0) by discriminate.
  revert HM. generalize (2 ^ 31) (2 ^ 32). intros h M HM.
  f_equal.
  replace ((a + h) mod M - h + ((b + h) mod M - h) + h)
    with ((a + h) mod M + ((b + h) mod M - h)) by ring.
  rewrite Z.add_mod_idemp_l by exact HM.
  replace (a + h + ((b + h) mod M - h)) with ((b + h) mod M + a) by ring.
  rewrite Z.add_mod_idemp_l by exact HM. f_equal. ring.
Qed.

Lemma wrap_i32_small (z : Z) : in_i32 z = true -> wrap_i32 z = z.
Proof.
  unfold in_i32, wrap_i32, i32_min, i32_max. intros H.
  apply andb_prop in H as [H1 H2]. apply Z.leb_le in H1, H2.
  rewrite Z.mod_small; lia.
Qed.

Lemma in_i32_wrap (z : Z) : in_i32 (wrap_i32 z) = true.
Proof.
  unfold in_i32, wrap_i32, i32_min, i32_max.
  pose proof (Z.mod_pos_bound (z + 2 ^ 31) (2 ^ 32)) as H.
  apply andb_true_intro; split; apply Z.leb_le; lia.
Qed.

Lemma add_i32_ok (p : profile) (a b c : Z) :
  add_i32 p a b = Ok c -> c = wrap_i32 (a + b) /\ in_i32 c = true.
Proof.
  destruct p; simpl.
  - destruct (in_i32 (a + b)) eqn:E; intros H; inversion H; subst.
    rewrite wrap_i32_small; auto.
  - intros H; inversion H; subst. split; [reflexivity | apply in_i32_wrap].
Qed.

Lemma add_i32_cases (p : profile) (a b : Z) :
  add_i32 p a b = Ok (wrap_i32 (a + b)) \/ (p = Debug /\ add_i32 p a b = Err Overflow).
Proof.
  destruct p; simpl; [|left; reflexivity].
  destruct (in_i32 (a + b)) eqn:E; [left | right; auto].
  rewrite wrap_i32_small; auto.
Qed.

(** ** Split points and interval sums *)

Lemma mid_bounds (lo hi : N) :
  (lo + 1 < hi)%N -> (lo < lo + (hi - lo) / 2 < hi)%N.
Proof.
  intros H.
  pose proof (N.div_mod (hi - lo) 2 ltac:(discriminate)) as Hd.
  pose proof (N.mod_lt (hi - lo) 2 ltac:(discriminate)) as Hm.
  revert Hd Hm. generalize ((hi - lo) / 2)%N ((hi - lo) mod 2)%N. intros q r Hd Hm.
  lia.
Qed.

Lemma sum_nat_add (f : N -> Z) (a : N) (n k : nat) :
  sum_nat f a (n + k) = sum_nat f a n + sum_nat f (a + N.of_nat n)%N k.
Proof.
  revert a; induction n as [|n IH]; intros a; simpl.
  - rewrite N.add_0_r. reflexivity.
  - rewrite IH. replace (a + 1 + N.of_nat n)%N with (a + N.pos (Pos.of_succ_nat n))%N by lia.
    ring.
Qed.

Lemma range_sum_split (f : N -> Z) (a m b : N) :
  (a <= m)%N -> (m <= b)%N -> range_sum f a b = range_sum f a m + range_sum f m b.
Proof.
  intros H1 H2. unfold range_sum.
  replace (N.to_nat (b - a)) with (N.to_nat (m - a) + N.to_nat (b - m))%nat by lia.
  rewrite sum_nat_add. f_equal. f_equal. lia.
Qed.

Lemma sum_nat_ext (f g : N -> Z) (a : N) (n : nat) :
  (forall i, (a <= i)%N -> (i < a + N.of_nat n)%N -> f i = g i) ->
  sum_nat f a n = sum_nat g a n.
Proof.
  revert a; induction n as [|n IH]; intros a H; simpl; [reflexivity|].
  rewrite (H a) by lia. f_equal. apply IH. intros i H1 H2. apply H; lia.
Qed.

Lemma range_sum_ext (f g : N -> Z) (a b : N) :
  (forall i, (a <= i)%N -> (i < b)%N -> f i = g i) ->
  range_sum f a b = range_sum g a b.
Proof.
  intros H. unfold range_sum. apply sum_nat_ext. intros i H1 H2. apply H; lia.
Qed.

Lemma range_sum_one (f : N -> Z) (a : N) : range_sum f a (a + 1) = f a.
Proof.
  unfold range_sum. replace (N.to_nat (a + 1 - a)) with 1%nat by lia.
  simpl. ring.
Qed.

(** ** The invariant [good] *)

Lemma leafval_node_l (v : Z) (rg : N * N) (m : N) (lt rt : SegTree) (i : N) :
  (i < m)%N -> leafval (mkSegTree v rg m (Some lt) (Some rt)) i = leafval lt i.
Proof. intros H. simpl. destruct (N.ltb_spec i m); [reflexivity | lia]. Qed.

Lemma leafval_node_r (v : Z) (rg : N * N) (m : N) (lt rt : SegTree) (i : N) :
  (m <= i)%N -> leafval (mkSegTree v rg m (Some lt) (Some rt)) i = leafval rt i.
Proof. intros H. simpl. destruct (N.ltb_spec i m); [lia | reflexivity]. Qed.

Lemma good_range (p : profile) (lo hi : N) (t : SegTree) :
  good p lo hi t -> range t = (lo, hi) /\ (lo < hi)%N.
Proof. destruct 1; simpl; split; auto; lia. Qed.

Lemma good_val (p : profile) (lo hi : N) (t : SegTree) :
  good p lo hi t -> val t = wrap_i32 (range_sum (leafval t) lo hi).
Proof.
  induction 1 as [lo v Hv | lo hi v lt rt Hw Hl IHl Hr IHr Hc].
  - rewrite range_sum_one. simpl. rewrite wrap_i32_small; auto.
  - simpl val. unfold comb in Hc. apply add_i32_ok in Hc as [-> _].
    rewrite IHl, IHr, wrap_i32_add. f_equal.
    pose proof (mid_bounds lo hi Hw) as Hm.
    rewrite (range_sum_split _ lo (lo + (hi - lo) / 2)%N hi) by lia.
    f_equal; apply range_sum_ext; intros i H1 H2.
    + rewrite leafval_node_l; auto.
    + rewrite leafval_node_r; auto.
Qed.

Lemma good_vals (p : profile) (lo hi : N) (t : SegTree) :
  good p lo hi t -> all_vals (fun v => in_i32 v = true) t.
Proof.
  induction 1 as [lo v Hv | lo hi v lt rt Hw Hl IHl Hr IHr Hc]; simpl; auto.
  unfold comb in Hc. apply add_i32_ok in Hc as [_ Hc]. auto.
Qed.

Lemma ask_good (p : profile) (lo hi : N) (t : SegTree) :
  good p lo hi t ->
  forall a b, (lo <= a)%N -> (a < b)%N -> (b <= hi)%N ->
  ask p t a b = Ok (wrap_i32 (range_sum (leafval t) a b)) \/
  (p = Debug /\ ask p t a b = Err Overflow).
Proof.
  induction 1 as [lo v Hv | lo hi v lt rt Hw Hl IHl Hr IHr Hc];
    intros a b Ha Hab Hb.
  - assert (a = lo) by lia. assert (b = (lo + 1)%N) by lia. subst.
    left. rewrite range_sum_one. simpl.
    destruct (N.leb_spec (lo + 1) lo); [lia|].
    destruct (N.ltb_spec lo lo); [lia|].
    destruct (N.ltb_spec (lo + 1) (lo + 1)); [lia|].
    rewrite !N.eqb_refl. simpl. rewrite wrap_i32_small; auto.
  - pose proof (mid_bounds lo hi Hw) as Hm.
    set (m := (lo + (hi - lo) / 2)%N) in *.
    cbn [ask].
    destruct (N.leb_spec b a); [lia|].
    destruct (N.ltb_spec a lo); [lia|].
    destruct (N.ltb_spec hi b); [lia|].
    simpl orb. cbv zeta.
    destruct ((a =? lo)%N && (b =? hi)%N) eqn:Eab.
    + apply andb_prop in Eab as [E1 E2].
      apply N.eqb_eq in E1, E2. subst a b. left.
      pose proof (good_val p lo hi _ (good_node p lo hi v lt rt Hw Hl Hr Hc)) as Hv.
      fold m in Hv. rewrite <- Hv. reflexivity.
    + destruct (N.leb_spec b m).
      * rewrite (range_sum_ext _ (leafval lt)) by (intros; apply leafval_node_l; lia).
        apply IHl; lia.
      * destruct (N.leb_spec m a).
        -- rewrite (range_sum_ext _ (leafval rt)) by (intros; apply leafval_node_r; lia).
           apply IHr; lia.
        -- rewrite (range_sum_split _ a m b) by lia.
           rewrite (range_sum_ext _ (leafval lt) a m) by (intros; apply leafval_node_l; lia).
           rewrite (range_sum_ext _ (leafval rt) m b) by (intros; apply leafval_node_r; lia).
           destruct (IHl a m) as [El | [Ep El]]; try lia; rewrite El;
             [| right; auto].
           destruct (IHr m b) as [Er | [Ep Er]]; try lia; rewrite Er;
             [| right; auto].
           rewrite <- wrap_i32_add.
           apply add_i32_cases.
Qed.

(** ** Construction *)

Lemma comb_0_0 (p : profile) : comb p 0 0 = Ok 0.
Proof. destruct p; reflexivity. Qed.

(** [build] over an empty interval never returns. *)
Lemma build_empty (fuel : nat) (l : N) : build fuel l l = None.
Proof.
  induction fuel as [|fuel IH]; [reflexivity|].
  cbn [build]. rewrite N.sub_diag, N.Div0.div_0_l, N.add_0_r.
  rewrite IH. reflexivity.
Qed.

Lemma build_good (p : profile) (fuel : nat) :
  forall l r t, build fuel l r = Some t -> (l < r)%N ->
  good p l r t /\ val t = 0 /\ (forall j, leafval t j = 0).
Proof.
  induction fuel as [|fuel IH]; intros l r t H Hlr; [discriminate|].
  cbn [build] in H.
  destruct (N.eqb_spec (r - l) 1) as [E|E].
  - inversion H; subst. replace r with (l + 1)%N by lia.
    split; [constructor; reflexivity | split; reflexivity].
  - cbv zeta in H.
    assert (Hw : (l + 1 < r)%N) by lia.
    pose proof (mid_bounds l r Hw) as Hm.
    destruct (build fuel l (l + (r - l) / 2)%N) as [lt|] eqn:E1; [|discriminate].
    destruct (build fuel (l + (r - l) / 2)%N r) as [rt|] eqn:E2; [|discriminate].
    inversion H; subst.
    destruct (IH _ _ _ E1 ltac:(lia)) as [G1 [V1 L1]].
    destruct (IH _ _ _ E2 ltac:(lia)) as [G2 [V2 L2]].
    split; [|split; [reflexivity|]].
    + apply good_node; auto. rewrite V1, V2. apply comb_0_0.
    + intros j. simpl. destruct (j <? l + (r - l) / 2)%N; auto.
Qed.

Lemma new_good (p : profile) (fuel : nat) (lo hi : N) (t : SegTree) :
  new fuel lo hi = Some (Ok t) ->
  good p lo hi t /\ (forall j, leafval t j = 0).
Proof.
  unfold new. intros H.
  destruct (N.leb_spec hi lo); [discriminate|]. cbv zeta in H.
  destruct (N.eqb_spec hi (lo + 1)) as [Ehi|Ehi].
  - subst hi. rewrite (N.add_comm lo 1), N.add_sub in H.
    change (1 / 2)%N with 0%N in H. rewrite N.add_0_r, build_empty in H.
    discriminate.
  - assert (Hw : (lo + 1 < hi)%N) by lia.
    pose proof (mid_bounds lo hi Hw) as Hm.
    destruct (build fuel lo (lo + (hi - lo) / 2)%N) as [lt|] eqn:E1; [|discriminate].
    destruct (build fuel (lo + (hi - lo) / 2)%N hi) as [rt|] eqn:E2; [|discriminate].
    inversion H; subst.
    destruct (build_good p _ _ _ _ E1 ltac:(lia)) as [G1 [V1 L1]].
    destruct (build_good p _ _ _ _ E2 ltac:(lia)) as [G2 [V2 L2]].
    split.
    + apply good_node; auto. rewrite V1, V2. apply comb_0_0.
    + intros j. simpl. destruct (j <? lo + (hi - lo) / 2)%N; auto.
Qed.

(** [build] returns once its fuel reaches the width of the interval. *)
Lemma build_returns (fuel : nat) :
  forall l r, (l < r)%N -> (N.to_nat (r - l) <= fuel)%nat ->
  exists t, build fuel l r = Some t.
Proof.
  induction fuel as [|fuel IH]; intros l r H Hf; [lia|].
  cbn [build].
  destruct (N.eqb_spec (r - l) 1) as [E|E]; [eexists; reflexivity|].
  cbv zeta.
  assert (Hw : (l + 1 < r)%N) by lia.
  pose proof (mid_bounds l r Hw) as Hm.
  destruct (IH l (l + (r - l) / 2)%N) as [lt E1]; [lia | lia |].
  destruct (IH (l + (r - l) / 2)%N r) as [rt E2]; [lia | lia |].
  rewrite E1, E2. eexists; reflexivity.
Qed.

(** ** Updates *)

Lemma revise_out_of_range (p : profile) (t : SegTree) (lo hi i : N) (v : Z) :
  range t = (lo, hi) -> (i < lo \/ hi <= i)%N ->
  revise p t i v = (t, Some IndexOutOfRange).
Proof.
  destruct t as [v0 [lo' hi'] m ln rn]. simpl. intros E H. inversion E; subst.
  replace ((i <? lo) || (hi <=? i))%N with true; [reflexivity|].
  destruct (N.ltb_spec i lo), (N.leb_spec hi i); simpl; auto; lia.
Qed.

Lemma revise_good (p : profile) (v : Z) (lo hi : N) (t : SegTree) :
  good p lo hi t -> in_i32 v = true ->
  forall i, (lo <= i)%N -> (i < hi)%N ->
  match revise p t i v with
  | (t', None) =>
      good p lo hi t' /\
      forall j, (lo <= j)%N -> (j < hi)%N ->
      leafval t' j = if (j =? i)%N then v else leafval t j
  | (_, Some e) => p = Debug /\ e = Overflow
  end.
Proof.
  intros G Hv. induction G as [lo v0 Hv0 | lo hi v0 lt rt Hw Hl IHl Hr IHr Hc];
    intros i Hi1 Hi2.
  - assert (i = lo) by lia. subst i. cbn [revise].
    destruct (N.ltb_spec lo lo); [lia|].
    destruct (N.leb_spec (lo + 1) lo); [lia|].
    rewrite !N.eqb_refl. simpl.
    split; [constructor; auto|].
    intros j Hj1 Hj2. assert (j = lo) by lia. subst j. rewrite N.eqb_refl. reflexivity.
  - pose proof (mid_bounds lo hi Hw) as Hm.
    set (m := (lo + (hi - lo) / 2)%N) in *.
    cbn [revise].
    destruct (N.ltb_spec i lo); [lia|].
    destruct (N.leb_spec hi i); [lia|].
    replace ((i =? lo)%N && (i + 1 =? hi)%N) with false
      by (destruct (N.eqb_spec i lo), (N.eqb_spec (i + 1) hi); simpl; auto; lia).
    simpl orb. cbv iota.
    destruct (N.ltb_spec i m).
    + specialize (IHl i ltac:(lia) ltac:(lia)).
      destruct (revise p lt i v) as [lt' [e|]]; [exact IHl|].
      destruct IHl as [Gl' Ll'].
      simpl val_or_0.
      destruct (comb p (val lt') (val rt)) as [x|e] eqn:Ec.
      * split; [apply good_node; auto|].
        intros j Hj1 Hj2. destruct (N.ltb_spec j m).
        -- rewrite !leafval_node_l by auto. apply Ll'; lia.
        -- rewrite !leafval_node_r by auto.
           destruct (N.eqb_spec j i); [lia | reflexivity].
      * unfold comb in Ec. destruct (add_i32_cases p (val lt') (val rt)) as [E|[Ep E]];
          rewrite Ec in E; inversion E; auto.
    + specialize (IHr i ltac:(lia) ltac:(lia)).
      destruct (revise p rt i v) as [rt' [e|]]; [exact IHr|].
      destruct IHr as [Gr' Lr'].
      simpl val_or_0.
      destruct (comb p (val lt) (val rt')) as [x|e] eqn:Ec.
      * split; [apply good_node; auto|].
        intros j Hj1 Hj2. destruct (N.ltb_spec j m).
        -- rewrite !leafval_node_l by auto.
           destruct (N.eqb_spec j i); [lia | reflexivity].
        -- rewrite !leafval_node_r by auto. apply Lr'; lia.
      * unfold comb in Ec. destruct (add_i32_cases p (val lt) (val rt')) as [E|[Ep E]];
          rewrite Ec in E; inversion E; auto.
Qed.

Lemma run_updates_good (p : profile) (lo hi : N) (ups : list (N * Z)) :
  Forall (fun u => in_i32 (snd u) = true) ups ->
  forall t t', good p lo hi t -> run_updates p t ups = (t', None) ->
  good p lo hi t' /\
  forall j, (lo <= j)%N -> (j < hi)%N -> leafval t' j = last_set ups j (leafval t j).
Proof.
  induction 1 as [|[i w] ups Hw Hups IH]; intros t t' G H.
  - inversion H; subst. auto.
  - simpl in Hw. cbn [run_updates] in H.
    destruct (good_range p lo hi t G) as [Er _].
    destruct (N.ltb_spec i lo) as [Hi|Hi];
      [rewrite (revise_out_of_range p t lo hi i w Er) in H by lia; discriminate|].
    destruct (N.leb_spec hi i) as [Hi'|Hi'];
      [rewrite (revise_out_of_range p t lo hi i w Er) in H by lia; discriminate|].
    pose proof (revise_good p w lo hi t G Hw i Hi ltac:(lia)) as R.
    destruct (revise p t i w) as [t1 [e|]]; [discriminate|].
    destruct R as [G1 L1].
    destruct (IH t1 t' G1 H) as [G' L']. split; auto.
    intros j Hj1 Hj2. rewrite L' by auto. simpl. rewrite L1 by auto.
    rewrite N.eqb_sym. reflexivity.
Qed.

Lemma reachable_good (p : profile) (lo hi : N) (t : SegTree) :
  reachable p lo hi t -> good p lo hi t.
Proof.
  intros (fuel & t0 & ups & Hn & Hv & Hr).
  destruct (new_good p fuel lo hi t0 Hn) as [G0 _].
  apply (run_updates_good p lo hi ups Hv t0 t G0 Hr).
Qed.

Lemma ask_invalid (p : profile) (t : SegTree) (lo hi a b : N) :
  range t = (lo, hi) -> (b <= a \/ a < lo \/ hi < b)%N ->
  ask p t a b = Err InvalidQueryRange.
Proof.
  destruct t as [v [lo' hi'] m ln rn]. simpl. intros E H. inversion E; subst.
  replace ((b <=? a) || (a <? lo) || (hi <? b))%N with true; [reflexivity|].
  destruct (N.leb_spec b a), (N.ltb_spec a lo), (N.ltb_spec hi b); simpl; auto; lia.
Qed.

(** ** Frame of an update *)

(** Induction on trees, through the optional children. *)
Definition on_child (P : SegTree -> Prop) (o : option SegTree) : Prop :=
  match o with Some t => P t | None => True end.

Fixpoint SegTree_ind' (P : SegTree -> Prop)
  (H : forall v rg m ln rn, on_child P ln -> on_child P rn -> P (mkSegTree v rg m ln rn))
  (t : SegTree) : P t :=
  match t with
  | mkSegTree v rg m ln rn =>
      H v rg m ln rn
        (match ln as o return on_child P o with
         | Some lt => SegTree_ind' P H lt
         | None => I
         end)
        (match rn as o return on_child P o with
         | Some rt => SegTree_ind' P H rt
         | None => I
         end)
  end.

(** Splits on the result of the [comb] of an update. *)
Ltac destruct_comb H :=
  match type of H with
  | context [comb ?p ?a ?b] => destruct (comb p a b); inversion H; subst
  end.

Lemma frame_refl (i : N) (t : SegTree) : frame i t t.
Proof.
  induction t as [v rg m ln rn IHl IHr] using SegTree_ind'.
  simpl. split; [reflexivity | split; [reflexivity|]].
  destruct (in_interval i rg); [|reflexivity].
  split.
  - destruct ln as [lt|]; simpl in IHl; auto.
  - destruct rn as [rt|]; simpl in IHr; auto.
Qed.

Lemma frame_shape (i : N) (t : SegTree) :
  forall t', frame i t t' -> shape t' = shape t.
Proof.
  induction t as [v rg m ln rn IHl IHr] using SegTree_ind'.
  intros [v' rg' m' ln' rn'] (Erg & Em & H). simpl in Erg, Em. subst.
  destruct (in_interval i rg).
  - destruct H as [Hl Hr]. simpl. f_equal.
    + destruct ln as [lt|], ln' as [lt'|]; simpl in *; try contradiction; auto.
      f_equal. apply IHl. exact Hl.
    + destruct rn as [rt|], rn' as [rt'|]; simpl in *; try contradiction; auto.
      f_equal. apply IHr. exact Hr.
  - rewrite H. reflexivity.
Qed.

Lemma revise_frame (p : profile) (i : N) (v : Z) (t : SegTree) :
  forall t', revise p t i v = (t', None) -> frame i t t'.
Proof.
  induction t as [v0 [lo hi] m ln rn IHl IHr] using SegTree_ind'.
  intros t' H. cbn [revise] in H.
  destruct ((i <? lo) || (hi <=? i))%N eqn:Eout; [discriminate|].
  assert (Ein : in_interval i (lo, hi) = true).
  { simpl. destruct (N.ltb_spec i lo), (N.leb_spec hi i), (N.leb_spec lo i), (N.ltb_spec i hi);
      simpl in *; auto; try discriminate; lia. }
  destruct ((i =? lo)%N && (i + 1 =? hi)%N).
  - inversion H; subst. cbn [frame]. rewrite Ein.
    pose proof (frame_refl i (mkSegTree v0 (lo, hi) m ln rn)) as Hr.
    cbn [frame] in Hr. rewrite Ein in Hr. destruct Hr as (_ & _ & Hr). auto.
  - destruct (i <? m)%N.
    + destruct ln as [lt|]; simpl in IHl.
      * destruct (revise p lt i v) as [lt' [e|]] eqn:E; [discriminate|].
        destruct_comb H.
        cbn [frame]. rewrite Ein. split; [reflexivity | split; [reflexivity|]].
        split; [apply IHl; reflexivity|].
        destruct rn as [rt|]; [apply frame_refl | exact I].
      * destruct_comb H.
        cbn [frame]. rewrite Ein. split; [reflexivity | split; [reflexivity|]].
        split; [exact I|].
        destruct rn as [rt|]; [apply frame_refl | exact I].
    + destruct rn as [rt|]; simpl in IHr.
      * destruct (revise p rt i v) as [rt' [e|]] eqn:E; [discriminate|].
        destruct_comb H.
        cbn [frame]. rewrite Ein. split; [reflexivity | split; [reflexivity|]].
        split; [destruct ln as [lt|]; [apply frame_refl | exact I]|].
        apply IHr; reflexivity.
      * destruct_comb H.
        cbn [frame]. rewrite Ein. split; [reflexivity | split; [reflexivity|]].
        split; [destruct ln as [lt|]; [apply frame_refl | exact I]|].
        exact I.
Qed.

(** ** Repeating an update *)

Ltac destruct_comb_eqn H :=
  match type of H with
  | context [comb ?p ?a ?b] => destruct (comb p a b) as [x|e] eqn:Ec; inversion H; subst
  end.

Lemma revise_idem (p : profile) (i : N) (v : Z) (t : SegTree) :
  forall t1, revise p t i v = (t1, None) -> revise p t1 i v = (t1, None).
Proof.
  induction t as [v0 [lo hi] m ln rn IHl IHr] using SegTree_ind'.
  intros t1 H. cbn [revise] in H.
  destruct ((i <? lo) || (hi <=? i))%N eqn:Eout; [discriminate|].
  destruct ((i =? lo)%N && (i + 1 =? hi)%N) eqn:Eleaf.
  - inversion H; subst. cbn [revise]. rewrite Eout, Eleaf. reflexivity.
  - destruct (i <? m)%N eqn:Em.
    + destruct ln as [lt|]; simpl in IHl.
      * destruct (revise p lt i v) as [lt' [e|]] eqn:E; [discriminate|].
        specialize (IHl lt' eq_refl).
        destruct_comb_eqn H.
        cbn [revise]. rewrite Eout, Eleaf, Em, IHl. rewrite Ec. reflexivity.
      * destruct_comb_eqn H.
        cbn [revise]. rewrite Eout, Eleaf, Em. rewrite Ec. reflexivity.
    + destruct rn as [rt|]; simpl in IHr.
      * destruct (revise p rt i v) as [rt' [e|]] eqn:E; [discriminate|].
        specialize (IHr rt' eq_refl).
        destruct_comb_eqn H.
        cbn [revise]. rewrite Eout, Eleaf, Em, IHr. rewrite Ec. reflexivity.
      * destruct_comb_eqn H.
        cbn [revise]. rewrite Eout, Eleaf, Em. rewrite Ec. reflexivity.
Qed.

(** ** Intervals covered by the children *)

Lemma good_single_path (p : profile) (i : N) (lo hi : N) (t : SegTree) :
  good p lo hi t -> single_path i t.
Proof.
  induction 1 as [lo v Hv | lo hi v lt rt Hw Hl IHl Hr IHr Hc]; simpl; auto.
  split; auto.
  destruct (good_range p _ _ _ Hl) as [El _], (good_range p _ _ _ Hr) as [Er _].
  unfold covers. rewrite El, Er. simpl.
  destruct (N.leb_spec lo i), (N.ltb_spec i (lo + (hi - lo) / 2)),
    (N.leb_spec (lo + (hi - lo) / 2) i), (N.ltb_spec i hi); simpl; auto; lia.
Qed.

Lemma new_returns_wide (lo hi : N) :
  (lo + 1 < hi)%N -> exists t, new (N.to_nat (hi - lo)) lo hi = Some (Ok t).
Proof.
  intros Hw. pose proof (mid_bounds lo hi Hw) as Hm. unfold new.
  destruct (N.leb_spec hi lo); [lia|]. cbv zeta.
  destruct (build_returns (N.to_nat (hi - lo)) lo (lo + (hi - lo) / 2)%N) as [lt E1];
    [lia | lia |].
  destruct (build_returns (N.to_nat (hi - lo)) (lo + (hi - lo) / 2)%N hi) as [rt E2];
    [lia | lia |].
  rewrite E1, E2. eexists; reflexivity.
Qed.

(** Establishes [reachable] for the tree of [main] and [test_ask]. *)
Ltac reach_demo :=
  exists 20%nat, demo_t0, demo_updates;
  split; [vm_compute; reflexivity|];
  split; [unfold demo_updates; simpl; repeat constructor | vm_compute; reflexivity].

(** * The claims *)

(** ** C1: a query returns the sum of the values set by the updates *)

(** C1 (as stated, refuted): with wrapping i32 addition, after setting
    index 0 to [i32_max] and index 1 to 1 on a tree over [[0, 2)],
    [ask(0, 2)] does not return the sum [2^31] of the values set. *)
Lemma query_sum_cex :
  exists t0 t,
    new 20 0 2 = Some (Ok t0) /\
    Forall (fun u => in_i32 (snd u) = true) overflow_updates /\
    run_updates Release t0 overflow_updates = (t, None) /\
    ask Release t 0 2 <> Ok (range_sum (fun j => last_set overflow_updates j 0) 0 2).
Proof.
  do 2 eexists.
  split; [reflexivity|].
  split; [repeat constructor|].
  split; [reflexivity|].
  vm_compute. discriminate.
Qed.

(** C1 (amended): for a tree built by [new] over [[lo, hi)] and any
    sequence of updates with i32 values that all returned, [ask(a, b)]
    with [lo <= a < b <= hi] returns the sum over [[a, b)] of the value
    most recently set at each index (0 for an index never set), reduced
    modulo 2^32 into the i32 range; only with overflow checks (debug
    profile) may it instead panic on an overflowing i32 addition. *)
Theorem query_sum_wrapped (p : profile) (fuel : nat) (lo hi : N) (t0 t : SegTree)
  (ups : list (N * Z)) (a b : N) :
  new fuel lo hi = Some (Ok t0) ->
  Forall (fun u => in_i32 (snd u) = true) ups ->
  run_updates p t0 ups = (t, None) ->
  (lo <= a)%N -> (a < b)%N -> (b <= hi)%N ->
  ask p t a b = Ok (wrap_i32 (range_sum (fun j => last_set ups j 0) a b)) \/
  (p = Debug /\ ask p t a b = Err Overflow).
Proof.
  intros Hn Hv Hr Ha Hab Hb.
  destruct (new_good p fuel lo hi t0 Hn) as [G0 L0].
  destruct (run_updates_good p lo hi ups Hv t0 t G0 Hr) as [G L].
  rewrite (range_sum_ext _ (leafval t)).
  - apply (ask_good p lo hi t G); auto.
  - intros j Hj1 Hj2. rewrite L, L0 by lia. reflexivity.
Qed.

Lemma query_sum_wrapped_witness :
  ask Release (demo_t Release) 3 7 =
    Ok (wrap_i32 (range_sum (fun j => last_set demo_updates j 0) 3 7)) \/
  (Release = Debug /\ ask Release (demo_t Release) 3 7 = Err Overflow).
Proof.
  apply (query_sum_wrapped Release 20 0 10 demo_t0 (demo_t Release) demo_updates 3 7).
  - vm_compute. reflexivity.
  - unfold demo_updates. simpl. repeat constructor.
  - vm_compute. reflexivity.
  - lia.
  - lia.
  - lia.
Defined.

(** ** C2: construction terminates *)

(** C2 (code defect): [new(lo, lo + 1)] never returns: it builds its left
    child over the empty interval [[lo, lo)], on which [build] recurses
    forever; no amount of fuel lets it finish. *)
Theorem new_width_one_diverges (fuel : nat) (lo : N) :
  new fuel lo (lo + 1) = None.
Proof.
  unfold new.
  destruct (N.leb_spec (lo + 1) lo); [lia|]. cbv zeta.
  rewrite (N.add_comm lo 1), N.add_sub.
  change (1 / 2)%N with 0%N. rewrite N.add_0_r, build_empty.
  reflexivity.
Qed.

(** ** C3: internal nodes hold the sum of their children *)

(** C3 (as stated, refuted): with wrapping i32 addition, after setting
    index 0 to [i32_max] and index 1 to 1 on a tree over [[0, 2)], the
    root does not hold the sum of its children's values. *)
Lemma node_sum_cex :
  exists t0 t,
    new 20 0 2 = Some (Ok t0) /\
    run_updates Release t0 overflow_updates = (t, None) /\
    ~ all_internal (fun v l r => v = l + r) t.
Proof.
  do 2 eexists.
  split; [reflexivity|].
  split; [reflexivity|].
  vm_compute. intros [H _]. discriminate H.
Qed.

(** C3 (amended): in every tree built by [new] and changed by updates
    that all returned, every internal node's value is the i32 sum of its
    children's values: that sum reduced modulo 2^32 into the i32 range,
    and exactly that sum with overflow checks (debug profile). *)
Theorem node_sum_i32 (p : profile) (lo hi : N) (t : SegTree) :
  reachable p lo hi t ->
  all_internal (fun v l r => v = wrap_i32 (l + r) /\ (p = Debug -> v = l + r)) t.
Proof.
  intros R. apply reachable_good in R.
  induction R as [lo v Hv | lo hi v lt rt Hw Hl IHl Hr IHr Hc]; simpl; auto.
  split; auto.
  unfold comb in Hc. split; [apply (add_i32_ok p _ _ _ Hc)|].
  intros ->. simpl in Hc. destruct (in_i32 (val lt + val rt)); inversion Hc; auto.
Qed.

Lemma node_sum_i32_witness :
  reachable Release 0 10 (demo_t Release) /\
  all_internal (fun v l r => v = wrap_i32 (l + r) /\ (Release = Debug -> v = l + r))
    (demo_t Release).
Proof.
  split; [reach_demo|].
  apply (node_sum_i32 Release 0 10). reach_demo.
Defined.

(** ** C4: the scenario of [test_ask] *)

(** C4: on the tree over [[0, 10)] with each index [i] set to [i], the
    queries [(0,10)], [(0,5)], [(5,10)] and [(3,7)] return 45, 10, 35 and
    18, with or without overflow checks. *)
Theorem demo_queries (p : profile) :
  exists t0 t,
    new 20 0 10 = Some (Ok t0) /\
    run_updates p t0 demo_updates = (t, None) /\
    ask p t 0 10 = Ok 45 /\ ask p t 0 5 = Ok 10 /\
    ask p t 5 10 = Ok 35 /\ ask p t 3 7 = Ok 18.
Proof.
  exists demo_t0, (demo_t p).
  destruct p; vm_compute; repeat split.
Qed.

(** ** C5: errors of a query *)

(** C5 (as stated, refuted): with overflow checks (debug profile), on a
    tree over [[0, 3)] holding [i32_max], 1 and [i32_min], the valid query
    [(0, 2)] panics: the partial sums [i32_max] and 1 overflow. *)
Lemma query_range_cex :
  exists t0 t,
    new 20 0 3 = Some (Ok t0) /\
    Forall (fun u => in_i32 (snd u) = true) partial_overflow_updates /\
    run_updates Debug t0 partial_overflow_updates = (t, None) /\
    (0 < 2)%N /\ (2 <= 3)%N /\
    ask Debug t 0 2 = Err Overflow.
Proof.
  do 2 eexists.
  split; [reflexivity|].
  split; [repeat constructor|].
  split; [reflexivity|].
  split; [lia|]. split; [lia|].
  vm_compute. reflexivity.
Qed.

(** C5 (amended): on a tree covering [[lo, hi)], [ask(a, b)] fails with
    [InvalidQueryRange] exactly when [b <= a], [a < lo] or [hi < b];
    otherwise it returns a result, except that with overflow checks
    (debug profile) it may panic on an overflowing i32 addition. *)
Theorem query_range_errors (p : profile) (lo hi : N) (t : SegTree) (a b : N) :
  reachable p lo hi t ->
  (ask p t a b = Err InvalidQueryRange <-> (b <= a \/ a < lo \/ hi < b)%N) /\
  (~ (b <= a \/ a < lo \/ hi < b)%N ->
   (exists s, ask p t a b = Ok s) \/ (p = Debug /\ ask p t a b = Err Overflow)).
Proof.
  intros R. apply reachable_good in R.
  destruct (good_range p lo hi t R) as [Er _].
  destruct (N.leb_spec b a); [|destruct (N.ltb_spec a lo); [|destruct (N.ltb_spec hi b)]].
  1-3: split; [split; [intros _; lia | intros _; apply (ask_invalid p t lo hi); auto; lia]
              | intros Hn; exfalso; lia].
  destruct (ask_good p lo hi t R a b) as [E|[Ep E]]; try lia.
  - rewrite E. split; [split; [discriminate | lia]|].
    intros _. left. eexists; reflexivity.
  - rewrite E. split; [split; [discriminate | lia]|].
    intros _. right. auto.
Qed.

Lemma query_range_errors_witness :
  reachable Release 0 10 (demo_t Release) /\
  ((ask Release (demo_t Release) 10 0 = Err InvalidQueryRange <-> (0 <= 10 \/ 10 < 0 \/ 10 < 0)%N) /\
   (~ (0 <= 10 \/ 10 < 0 \/ 10 < 0)%N ->
    (exists s, ask Release (demo_t Release) 10 0 = Ok s) \/
    (Release = Debug /\ ask Release (demo_t Release) 10 0 = Err Overflow))).
Proof.
  split; [reach_demo|].
  apply (query_range_errors Release 0 10). reach_demo.
Defined.

(** ** C6: errors of an update *)

(** C6: on a tree covering [[lo, hi)], [revise(i, v)] fails with
    [IndexOutOfRange] exactly when [i] is outside [[lo, hi)], and when it
    does the tree is left as it was. *)
Theorem revise_index_error (p : profile) (lo hi : N) (t : SegTree) (i : N) (v : Z) :
  reachable p lo hi t -> in_i32 v = true ->
  (snd (revise p t i v) = Some IndexOutOfRange <-> (i < lo \/ hi <= i)%N) /\
  (snd (revise p t i v) = Some IndexOutOfRange -> fst (revise p t i v) = t).
Proof.
  intros R Hv. apply reachable_good in R.
  destruct (good_range p lo hi t R) as [Er _].
  destruct (N.ltb_spec i lo); [|destruct (N.leb_spec hi i)].
  1-2: rewrite (revise_out_of_range p t lo hi i v Er) by lia; simpl;
       split; [split; [intros _; lia | reflexivity] | reflexivity].
  pose proof (revise_good p v lo hi t R Hv i ltac:(lia) ltac:(lia)) as G.
  destruct (revise p t i v) as [t' [e|]]; simpl.
  - destruct G as [_ ->]. split; [split; [discriminate | lia] | discriminate].
  - split; [split; [discriminate | lia] | discriminate].
Qed.

Lemma revise_index_error_witness :
  reachable Release 0 10 (demo_t Release) /\ in_i32 10 = true /\
  (snd (revise Release (demo_t Release) 10 10) = Some IndexOutOfRange <->
     (10 < 0 \/ 10 <= 10)%N) /\
  (snd (revise Release (demo_t Release) 10 10) = Some IndexOutOfRange ->
     fst (revise Release (demo_t Release) 10 10) = demo_t Release).
Proof.
  split; [reach_demo|]. split; [reflexivity|].
  apply (revise_index_error Release 0 10); [reach_demo | reflexivity].
Defined.

(** ** C7: construction over an empty or inverted interval *)

(** C7: [new(lo, hi)] with [hi <= lo] fails with [InvalidRange], without
    building anything. *)
Theorem new_invalid_range (fuel : nat) (lo hi : N) :
  (hi <= lo)%N -> new fuel lo hi = Some (Err InvalidRange).
Proof.
  intros H. unfold new. destruct (N.leb_spec hi lo); [reflexivity | lia].
Qed.

Lemma new_invalid_range_witness :
  (0 <= 10)%N /\ new 0 10 0 = Some (Err InvalidRange).
Proof.
  split; [lia|]. apply new_invalid_range. lia.
Defined.

(** ** C8: what an update changes *)

(** C8: a [revise(i, v)] that returns changes only values: every node
    keeps its interval, split point and children, a node whose interval
    does not contain [i] is unchanged with its whole subtree, and the
    nodes whose interval contains [i] form a single path from the root. *)
Theorem revise_frame_shape (p : profile) (lo hi : N) (t t' : SegTree) (i : N) (v : Z) :
  reachable p lo hi t ->
  revise p t i v = (t', None) ->
  frame i t t' /\ shape t' = shape t /\ single_path i t.
Proof.
  intros R H.
  pose proof (revise_frame p i v t t' H) as F.
  split; [exact F|]. split; [apply (frame_shape i t t' F)|].
  apply (good_single_path p i lo hi t). apply reachable_good with (1 := R).
Qed.

Lemma revise_frame_shape_witness :
  let t' := fst (revise Release (demo_t Release) 2 10) in
  reachable Release 0 10 (demo_t Release) /\
  revise Release (demo_t Release) 2 10 = (t', None) /\
  (frame 2 (demo_t Release) t' /\ shape t' = shape (demo_t Release) /\
   single_path 2 (demo_t Release)).
Proof.
  intros t'. split; [reach_demo|]. split; [vm_compute; reflexivity|].
  apply (revise_frame_shape Release 0 10 (demo_t Release) t' 2 10);
    [reach_demo | vm_compute; reflexivity].
Defined.

(** ** C9: repeating an update *)

(** C9: if [revise(i, v)] returns, a second [revise(i, v)] returns too and
    leaves the tree as the first one left it, so every query answers as
    after the first. *)
Theorem revise_twice (p : profile) (t t1 : SegTree) (i : N) (v : Z) :
  revise p t i v = (t1, None) ->
  snd (revise p t1 i v) = None /\
  forall a b, ask p (fst (revise p t1 i v)) a b = ask p t1 a b.
Proof.
  intros H. rewrite (revise_idem p i v t t1 H). simpl. auto.
Qed.

Lemma revise_twice_witness :
  let t1 := fst (revise Release (demo_t Release) 4 7) in
  revise Release (demo_t Release) 4 7 = (t1, None) /\
  (snd (revise Release t1 4 7) = None /\
   forall a b, ask Release (fst (revise Release t1 4 7)) a b = ask Release t1 a b).
Proof.
  intros t1. split; [vm_compute; reflexivity|].
  apply (revise_twice Release (demo_t Release) t1 4 7). vm_compute. reflexivity.
Defined.

(** ** C10: i32 arithmetic *)

(** C10: every value stored in a tree lies in the i32 range, and every
    result of a query is the sum of the leaf values of the queried
    interval reduced modulo 2^32 into the i32 range. *)
Theorem i32_results (p : profile) (lo hi : N) (t : SegTree) :
  reachable p lo hi t ->
  all_vals (fun v => in_i32 v = true) t /\
  forall a b s, ask p t a b = Ok s ->
  in_i32 s = true /\ s = wrap_i32 (range_sum (leafval t) a b).
Proof.
  intros R. apply reachable_good in R.
  split; [apply (good_vals p lo hi t R)|].
  intros a b s H.
  destruct (good_range p lo hi t R) as [Er _].
  destruct (N.leb_spec b a); [rewrite (ask_invalid p t lo hi) in H by (auto; lia); discriminate|].
  destruct (N.ltb_spec a lo); [rewrite (ask_invalid p t lo hi) in H by (auto; lia); discriminate|].
  destruct (N.ltb_spec hi b); [rewrite (ask_invalid p t lo hi) in H by (auto; lia); discriminate|].
  destruct (ask_good p lo hi t R a b) as [E|[_ E]]; try lia; rewrite E in H; inversion H.
  split; [apply in_i32_wrap | reflexivity].
Qed.

Lemma i32_results_witness :
  reachable Release 0 10 (demo_t Release) /\
  (all_vals (fun v => in_i32 v = true) (demo_t Release) /\
   forall a b s, ask Release (demo_t Release) a b = Ok s ->
   in_i32 s = true /\ s = wrap_i32 (range_sum (leafval (demo_t Release)) a b)).
Proof.
  split; [reach_demo|].
  apply (i32_results Release 0 10). reach_demo.
Defined.

(** * Further properties of the code *)

(** ** Helper lemmas *)

Lemma run_updates_app (p : profile) (t : SegTree) (ups1 ups2 : list (N * Z)) :
  run_updates p t (ups1 ++ ups2) =
  match run_updates p t ups1 with
  | (t', None) => run_updates p t' ups2
  | r => r
  end.
Proof.
  revert t; induction ups1 as [|[i v] ups1 IH]; intros t; [reflexivity|].
  simpl. destruct (revise p t i v) as [t' [e|]]; [reflexivity | apply IH].
Qed.

Lemma reachable_revise (p : profile) (lo hi : N) (t t' : SegTree) (i : N) (v : Z) :
  reachable p lo hi t -> in_i32 v = true -> revise p t i v = (t', None) ->
  reachable p lo hi t'.
Proof.
  intros (fuel & t0 & ups & Hn & Hv & Hr) Hiv H.
  exists fuel, t0, (ups ++ [(i, v)]). split; [exact Hn|]. split.
  - apply Forall_app. split; auto.
  - rewrite run_updates_app, Hr. simpl. rewrite H. reflexivity.
Qed.

Lemma good_unique (p : profile) (lo hi : N) (t1 : SegTree) :
  good p lo hi t1 -> forall t2, good p lo hi t2 ->
  (forall j, (lo <= j)%N -> (j < hi)%N -> leafval t1 j = leafval t2 j) ->
  t1 = t2.
Proof.
  induction 1 as [lo v Hv | lo hi v lt rt Hw Hl IHl Hr IHr Hc]; intros t2 G2 L.
  - inversion G2 as [lo' v' Hv' E1 E2 | lo' hi' v' lt' rt' Hw' Hl' Hr' Hc' E1 E2]; subst.
    + specialize (L lo ltac:(lia) ltac:(lia)). simpl in L. subst. reflexivity.
    + lia.
  - inversion G2 as [lo' v' Hv' E1 E2 | lo' hi' v' lt' rt' Hw' Hl' Hr' Hc' E1 E2]; subst.
    + lia.
    + pose proof (mid_bounds lo hi Hw) as Hm.
      assert (lt = lt').
      { apply IHl; auto. intros j H1 H2.
        specialize (L j ltac:(lia) ltac:(lia)).
        rewrite !leafval_node_l in L by lia. exact L. }
      assert (rt = rt').
      { apply IHr; auto. intros j H1 H2.
        specialize (L j ltac:(lia) ltac:(lia)).
        rewrite !leafval_node_r in L by lia. exact L. }
      subst. rewrite Hc in Hc'. inversion Hc'. reflexivity.
Qed.

Lemma ask_single (p : profile) (lo hi : N) (t : SegTree) :
  good p lo hi t -> forall i, (lo <= i)%N -> (i < hi)%N ->
  ask p t i (i + 1) = Ok (leafval t i).
Proof.
  induction 1 as [lo v Hv | lo hi v lt rt Hw Hl IHl Hr IHr Hc]; intros i H1 H2.
  - assert (i = lo) by lia. subst. simpl.
    destruct (N.leb_spec (lo + 1) lo); [lia|].
    destruct (N.ltb_spec lo lo); [lia|].
    destruct (N.ltb_spec (lo + 1) (lo + 1)); [lia|].
    rewrite !N.eqb_refl. reflexivity.
  - pose proof (mid_bounds lo hi Hw) as Hm.
    set (m := (lo + (hi - lo) / 2)%N) in *.
    cbn [ask].
    destruct (N.leb_spec (i + 1) i); [lia|].
    destruct (N.ltb_spec i lo); [lia|].
    destruct (N.ltb_spec hi (i + 1)); [lia|].
    replace ((i =? lo)%N && (i + 1 =? hi)%N) with false
      by (destruct (N.eqb_spec i lo), (N.eqb_spec (i + 1) hi); simpl; auto; lia).
    simpl orb. cbv iota.
    destruct (N.leb_spec (i + 1) m).
    + rewrite leafval_node_l by lia. apply IHl; lia.
    + destruct (N.leb_spec m i); [|lia].
      rewrite leafval_node_r by lia. apply IHr; lia.
Qed.

Lemma ask_local (p : profile) (lo hi : N) (t1 : SegTree) :
  good p lo hi t1 -> forall t2 a b, good p lo hi t2 ->
  (lo <= a)%N -> (a < b)%N -> (b <= hi)%N ->
  (forall j, (a <= j)%N -> (j < b)%N -> leafval t1 j = leafval t2 j) ->
  ask p t1 a b = ask p t2 a b.
Proof.
  intros G1. induction G1 as [lo v Hv | lo hi v lt rt Hw Hl IHl Hr IHr Hc];
    intros t2 a b G2 Ha Hab Hb L.
  - assert (a = lo) by lia. assert (b = (lo + 1)%N) by lia. subst.
    f_equal. apply (good_unique p lo (lo + 1)); [constructor; auto | auto |].
    intros j H1 H2. apply L; lia.
  - inversion G2 as [lo' v' Hv' E1 E2 | lo' hi' v' lt' rt' Hw' Hl' Hr' Hc' E1 E2];
      subst; [lia|].
    pose proof (mid_bounds lo hi Hw) as Hm.
    set (m := (lo + (hi - lo) / 2)%N) in *.
    cbn [ask].
    destruct ((b <=? a) || (a <? lo) || (hi <? b))%N; [reflexivity|].
    destruct ((a =? lo)%N && (b =? hi)%N) eqn:Eab.
    + apply andb_prop in Eab as [E1 E2]. apply N.eqb_eq in E1, E2. subst a b.
      assert (Heq : mkSegTree v (lo, hi) m (Some lt) (Some rt) =
                    mkSegTree v' (lo, hi) m (Some lt') (Some rt')).
      { apply (good_unique p lo hi); [apply good_node | apply good_node|]; auto. }
      inversion Heq. reflexivity.
    + destruct (N.leb_spec b m).
      * apply IHl; auto; try lia. intros j H1 H2.
        specialize (L j H1 H2). rewrite !leafval_node_l in L by lia. exact L.
      * destruct (N.leb_spec m a).
        -- apply IHr; auto; try lia. intros j H1 H2.
           specialize (L j H1 H2). rewrite !leafval_node_r in L by lia. exact L.
        -- rewrite (IHl lt' a m); auto; try lia;
             [| intros j H1 H2; specialize (L j ltac:(lia) ltac:(lia));
                rewrite !leafval_node_l in L by lia; exact L].
           rewrite (IHr rt' m b); auto; try lia.
           intros j H1 H2; specialize (L j ltac:(lia) ltac:(lia)).
           rewrite !leafval_node_r in L by lia. exact L.
Qed.

Lemma add_i32_debug (a b c : Z) : add_i32 Debug a b = Ok c -> c = a + b.
Proof. simpl. destruct (in_i32 (a + b)); intros H; inversion H; reflexivity. Qed.

Lemma good_val_debug (lo hi : N) (t : SegTree) :
  good Debug lo hi t -> val t = range_sum (leafval t) lo hi.
Proof.
  induction 1 as [lo v Hv | lo hi v lt rt Hw Hl IHl Hr IHr Hc].
  - rewrite range_sum_one. reflexivity.
  - simpl val. unfold comb in Hc. apply add_i32_debug in Hc as ->.
    rewrite IHl, IHr.
    pose proof (mid_bounds lo hi Hw) as Hm.
    rewrite (range_sum_split _ lo (lo + (hi - lo) / 2)%N hi) by lia.
    f_equal; apply range_sum_ext; intros i H1 H2.
    + rewrite leafval_node_l; auto.
    + rewrite leafval_node_r; auto.
Qed.

Lemma ask_exact_debug (lo hi : N) (t : SegTree) :
  good Debug lo hi t ->
  forall a b s, (lo <= a)%N -> (a < b)%N -> (b <= hi)%N ->
  ask Debug t a b = Ok s -> s = range_sum (leafval t) a b.
Proof.
  induction 1 as [lo v Hv | lo hi v lt rt Hw Hl IHl Hr IHr Hc];
    intros a b s Ha Hab Hb H.
  - assert (a = lo) by lia. assert (b = (lo + 1)%N) by lia. subst.
    rewrite (ask_single Debug lo (lo + 1) _ (good_leaf Debug lo v Hv) lo) in H by lia.
    inversion H. rewrite range_sum_one. reflexivity.
  - pose proof (mid_bounds lo hi Hw) as Hm.
    set (m := (lo + (hi - lo) / 2)%N) in *.
    cbn [ask] in H.
    destruct (N.leb_spec b a); [lia|].
    destruct (N.ltb_spec a lo); [lia|].
    destruct (N.ltb_spec hi b); [lia|].
    simpl orb in H. cbv zeta in H.
    destruct ((a =? lo)%N && (b =? hi)%N) eqn:Eab.
    + apply andb_prop in Eab as [E1 E2].
      apply N.eqb_eq in E1, E2. subst a b. inversion H; subst s.
      pose proof (good_val_debug lo hi _ (good_node Debug lo hi v lt rt Hw Hl Hr Hc)) as Hv.
      fold m in Hv. exact Hv.
    + destruct (N.leb_spec b m).
      * rewrite (range_sum_ext _ (leafval lt)) by (intros; apply leafval_node_l; lia).
        apply IHl; auto; lia.
      * destruct (N.leb_spec m a).
        -- rewrite (range_sum_ext _ (leafval rt)) by (intros; apply leafval_node_r; lia).
           apply IHr; auto; lia.
        -- rewrite (range_sum_split _ a m b) by lia.
           rewrite (range_sum_ext _ (leafval lt) a m) by (intros; apply leafval_node_l; lia).
           rewrite (range_sum_ext _ (leafval rt) m b) by (intros; apply leafval_node_r; lia).
           destruct (ask Debug lt a m) as [x|e] eqn:El; [|discriminate].
           destruct (ask Debug rt m b) as [y|e] eqn:Er; [|discriminate].
           apply add_i32_debug in H. subst s.
           rewrite (IHl a m x), (IHr m b y); auto; lia.
Qed.

Lemma good_count (p : profile) (lo hi : N) (t : SegTree) :
  good p lo hi t -> count_nodes t = (2 * (hi - lo) - 1)%N.
Proof.
  induction 1 as [lo v Hv | lo hi v lt rt Hw Hl IHl Hr IHr Hc].
  - cbn [count_nodes]. lia.
  - pose proof (mid_bounds lo hi Hw) as Hm. cbn [count_nodes].
    rewrite IHl, IHr. lia.
Qed.

Lemma revise_release_completes (lo hi : N) (t : SegTree) (i : N) (v : Z) :
  good Release lo hi t -> in_i32 v = true -> (lo <= i)%N -> (i < hi)%N ->
  exists t', revise Release t i v = (t', None) /\ good Release lo hi t'.
Proof.
  intros G Hv H1 H2.
  pose proof (revise_good Release v lo hi t G Hv i H1 H2) as R.
  destruct (revise Release t i v) as [t' [e|]].
  - destruct R as [R _]. discriminate R.
  - exists t'. split; [reflexivity | apply R].
Qed.

Lemma add_i32_fits (p : profile) (a b : Z) :
  in_i32 (a + b) = true -> add_i32 p a b = Ok (a + b).
Proof.
  intros H. destruct p; simpl; [rewrite H | rewrite wrap_i32_small]; auto.
Qed.

Lemma range_sum_zero (f : N -> Z) (a b : N) :
  (forall j, f j = 0) -> range_sum f a b = 0.
Proof.
  intros H. unfold range_sum. generalize (N.to_nat (b - a)) as n. revert a.
  intros a n. revert a. induction n as [|n IH]; intros a; simpl; [reflexivity|].
  rewrite H, IH. reflexivity.
Qed.

Lemma ask_fits (p : profile) (lo hi : N) (t : SegTree) :
  good p lo hi t ->
  forall a b, (lo <= a)%N -> (a < b)%N -> (b <= hi)%N ->
  (forall a' b', (a <= a')%N -> (a' < b')%N -> (b' <= b)%N ->
     in_i32 (range_sum (leafval t) a' b') = true) ->
  ask p t a b = Ok (range_sum (leafval t) a b).
Proof.
  induction 1 as [lo v Hv | lo hi v lt rt Hw Hl IHl Hr IHr Hc];
    intros a b Ha Hab Hb F.
  - assert (a = lo) by lia. assert (b = (lo + 1)%N) by lia. subst.
    rewrite (ask_single p lo (lo + 1) _ (good_leaf p lo v Hv) lo) by lia.
    rewrite range_sum_one. reflexivity.
  - pose proof (mid_bounds lo hi Hw) as Hm.
    set (m := (lo + (hi - lo) / 2)%N) in *.
    cbn [ask].
    destruct (N.leb_spec b a); [lia|].
    destruct (N.ltb_spec a lo); [lia|].
    destruct (N.ltb_spec hi b); [lia|].
    simpl orb. cbv zeta.
    destruct ((a =? lo)%N && (b =? hi)%N) eqn:Eab.
    + apply andb_prop in Eab as [E1 E2].
      apply N.eqb_eq in E1, E2. subst a b.
      pose proof (good_val p lo hi _ (good_node p lo hi v lt rt Hw Hl Hr Hc)) as Hv.
      fold m in Hv. simpl in Hv |- *. rewrite Hv, wrap_i32_small; [reflexivity|].
      apply F; lia.
    + assert (FL : forall a' b', (a <= a')%N -> (a' < b')%N -> (b' <= b)%N -> (b' <= m)%N ->
                   in_i32 (range_sum (leafval lt) a' b') = true).
      { intros a' b' K1 K2 K3 K4.
        rewrite (range_sum_ext _ (leafval (mkSegTree v (lo, hi) m (Some lt) (Some rt))))
          by (intros; symmetry; apply leafval_node_l; lia).
        apply F; lia. }
      assert (FR : forall a' b', (a <= a')%N -> (a' < b')%N -> (b' <= b)%N -> (m <= a')%N ->
                   in_i32 (range_sum (leafval rt) a' b') = true).
      { intros a' b' K1 K2 K3 K4.
        rewrite (range_sum_ext _ (leafval (mkSegTree v (lo, hi) m (Some lt) (Some rt))))
          by (intros; symmetry; apply leafval_node_r; lia).
        apply F; lia. }
      destruct (N.leb_spec b m).
      * rewrite (range_sum_ext _ (leafval lt)) by (intros; apply leafval_node_l; lia).
        apply IHl; try lia. intros; apply FL; lia.
      * destruct (N.leb_spec m a).
        -- rewrite (range_sum_ext _ (leafval rt)) by (intros; apply leafval_node_r; lia).
           apply IHr; try lia. intros; apply FR; lia.
        -- rewrite (IHl a m) by (try lia; intros; apply FL; lia).
           rewrite (IHr m b) by (try lia; intros; apply FR; lia).
           assert (Hs : range_sum (leafval (mkSegTree v (lo, hi) m (Some lt) (Some rt))) a b =
                        range_sum (leafval lt) a m + range_sum (leafval rt) m b).
           { rewrite (range_sum_split _ a m b) by lia.
             rewrite (range_sum_ext _ (leafval lt) a m) by (intros; apply leafval_node_l; lia).
             rewrite (range_sum_ext _ (leafval rt) m b) by (intros; apply leafval_node_r; lia).
             reflexivity. }
           rewrite Hs. apply add_i32_fits. rewrite <- Hs. apply F; lia.
Qed.

(** ** Extra properties *)

(** X1: a tree fresh from [new(lo, hi)] reports the range [(lo, hi)] and
    value 0 ([test_build]), and every valid query on it returns 0, with or
    without overflow checks. *)
Theorem new_fresh_tree (fuel : nat) (lo hi : N) (t : SegTree) :
  new fuel lo hi = Some (Ok t) ->
  get_range t = (lo, hi) /\ get_val t = 0 /\
  forall p a b, (lo <= a)%N -> (a < b)%N -> (b <= hi)%N -> ask p t a b = Ok 0.
Proof.
  intros Hn.
  destruct (new_good Release fuel lo hi t Hn) as [G L].
  split; [apply (good_range Release lo hi t G)|].
  split.
  - unfold get_val. rewrite (good_val Release lo hi t G), range_sum_zero by exact L.
    reflexivity.
  - intros p a b Ha Hab Hb.
    destruct (new_good p fuel lo hi t Hn) as [Gp _].
    rewrite (ask_fits p lo hi t Gp a b Ha Hab Hb).
    + rewrite range_sum_zero by exact L. reflexivity.
    + intros a' b' _ _ _. rewrite range_sum_zero by exact L. reflexivity.
Qed.

Lemma new_fresh_tree_witness :
  new 20 0 10 = Some (Ok demo_t0) /\
  (get_range demo_t0 = (0, 10)%N /\ get_val demo_t0 = 0 /\
   forall p a b, (0 <= a)%N -> (a < b)%N -> (b <= 10)%N -> ask p demo_t0 a b = Ok 0).
Proof.
  split; [vm_compute; reflexivity|].
  apply (new_fresh_tree 20 0 10 demo_t0). vm_compute. reflexivity.
Defined.

(** X2: on a tree covering [[lo, hi)], the query [(lo, hi)] never panics
    and returns the root value [get_val], which is the sum of all leaf
    values reduced modulo 2^32 into the i32 range. *)
Theorem ask_full_range (p : profile) (lo hi : N) (t : SegTree) :
  reachable p lo hi t ->
  ask p t lo hi = Ok (get_val t) /\
  get_val t = wrap_i32 (range_sum (leafval t) lo hi).
Proof.
  intros R. apply reachable_good in R.
  split; [|apply (good_val p lo hi t R)].
  destruct (good_range p lo hi t R) as [Er Hlt].
  destruct t as [v [lo' hi'] m ln rn]. simpl in Er. inversion Er; subst.
  cbn [ask].
  destruct (N.leb_spec hi lo); [lia|].
  destruct (N.ltb_spec lo lo); [lia|].
  destruct (N.ltb_spec hi hi); [lia|].
  rewrite !N.eqb_refl. reflexivity.
Qed.

Lemma ask_full_range_witness :
  reachable Debug 0 10 (demo_t Debug) /\
  (ask Debug (demo_t Debug) 0 10 = Ok (get_val (demo_t Debug)) /\
   get_val (demo_t Debug) = wrap_i32 (range_sum (leafval (demo_t Debug)) 0 10)).
Proof.
  split; [reach_demo|].
  apply (ask_full_range Debug 0 10). reach_demo.
Defined.



(** X4: a [revise(i, v)] that returns does not change the answer of any
    query whose range does not contain [i]. *)
Theorem revise_local (p : profile) (lo hi : N) (t t' : SegTree) (i : N) (v : Z) (a b : N) :
  reachable p lo hi t -> in_i32 v = true -> revise p t i v = (t', None) ->
  (i < a \/ b <= i)%N ->
  ask p t' a b = ask p t a b.
Proof.
  intros R Hv H Hi. apply reachable_good in R.
  destruct (good_range p lo hi t R) as [Er _].
  destruct (N.ltb_spec i lo);
    [rewrite (revise_out_of_range p t lo hi i v Er) in H by lia; discriminate|].
  destruct (N.leb_spec hi i);
    [rewrite (revise_out_of_range p t lo hi i v Er) in H by lia; discriminate|].
  pose proof (revise_good p v lo hi t R Hv i ltac:(lia) ltac:(lia)) as G.
  rewrite H in G. destruct G as [G' L'].
  destruct (good_range p lo hi t' G') as [Er' _].
  destruct (N.leb_spec b a); [rewrite !(ask_invalid p _ lo hi) by (auto; lia); reflexivity|].
  destruct (N.ltb_spec a lo); [rewrite !(ask_invalid p _ lo hi) by (auto; lia); reflexivity|].
  destruct (N.ltb_spec hi b); [rewrite !(ask_invalid p _ lo hi) by (auto; lia); reflexivity|].
  apply (ask_local p lo hi t' G' t a b R); try lia.
  intros j K1 K2. rewrite L' by lia. destruct (N.eqb_spec j i); [lia | reflexivity].
Qed.

Lemma revise_local_witness :
  reachable Release 0 10 (demo_t Release) /\ in_i32 100 = true /\
  revise Release (demo_t Release) 7 100 =
    (fst (revise Release (demo_t Release) 7 100), None) /\
  (7 < 0 \/ 5 <= 7)%N /\
  ask Release (fst (revise Release (demo_t Release) 7 100)) 0 5 =
    ask Release (demo_t Release) 0 5.
Proof.
  split; [reach_demo|]. split; [reflexivity|].
  split; [vm_compute; reflexivity|]. split; [lia|].
  apply (revise_local Release 0 10 (demo_t Release) _ 7 100 0 5);
    [reach_demo | reflexivity | vm_compute; reflexivity | lia].
Defined.

(** X5: a tree built by [new] and changed by a sequence of updates that all
    returned depends only on the last value set at each index: two such
    sequences that agree on it give the same tree. *)
Theorem updates_determine_tree (p : profile) (fuel : nat) (lo hi : N) (t0 t1 t2 : SegTree)
  (ups1 ups2 : list (N * Z)) :
  new fuel lo hi = Some (Ok t0) ->
  Forall (fun u => in_i32 (snd u) = true) ups1 ->
  Forall (fun u => in_i32 (snd u) = true) ups2 ->
  run_updates p t0 ups1 = (t1, None) ->
  run_updates p t0 ups2 = (t2, None) ->
  (forall j, (lo <= j)%N -> (j < hi)%N -> last_set ups1 j 0 = last_set ups2 j 0) ->
  t1 = t2.
Proof.
  intros Hn Hv1 Hv2 H1 H2 E.
  destruct (new_good p fuel lo hi t0 Hn) as [G0 L0].
  destruct (run_updates_good p lo hi ups1 Hv1 t0 t1 G0 H1) as [G1 L1].
  destruct (run_updates_good p lo hi ups2 Hv2 t0 t2 G0 H2) as [G2 L2].
  apply (good_unique p lo hi t1 G1 t2 G2).
  intros j K1 K2. rewrite L1, L2, L0 by lia. apply E; lia.
Qed.

Lemma updates_determine_tree_witness :
  let t0 := match new 20 0 4 with Some (Ok t) => t | _ => demo_t0 end in
  new 20 0 4 = Some (Ok t0) /\
  Forall (fun u => in_i32 (snd u) = true) [(1%N, 5)] /\
  Forall (fun u => in_i32 (snd u) = true) [(1%N, 3); (1%N, 5)] /\
  run_updates Debug t0 [(1%N, 5)] = (fst (run_updates Debug t0 [(1%N, 5)]), None) /\
  run_updates Debug t0 [(1%N, 3); (1%N, 5)] =
    (fst (run_updates Debug t0 [(1%N, 3); (1%N, 5)]), None) /\
  (forall j, (0 <= j)%N -> (j < 4)%N ->
     last_set [(1%N, 5)] j 0 = last_set [(1%N, 3); (1%N, 5)] j 0) /\
  fst (run_updates Debug t0 [(1%N, 5)]) = fst (run_updates Debug t0 [(1%N, 3); (1%N, 5)]).
Proof.
  intros t0.
  assert (E : forall j, (0 <= j)%N -> (j < 4)%N ->
     last_set [(1%N, 5)] j 0 = last_set [(1%N, 3); (1%N, 5)] j 0).
  { intros j _ _. cbn [last_set]. destruct (1 =? j)%N; reflexivity. }
  split; [vm_compute; reflexivity|].
  split; [repeat constructor|]. split; [repeat constructor|].
  split; [vm_compute; reflexivity|]. split; [vm_compute; reflexivity|].
  split; [exact E|].
  apply (updates_determine_tree Debug 20 0 4 t0 _ _ [(1%N, 5)] [(1%N, 3); (1%N, 5)]);
    [vm_compute; reflexivity | repeat constructor | repeat constructor
    | vm_compute; reflexivity | vm_compute; reflexivity | exact E].
Defined.

(** X6: with wrapping i32 addition (release profile), two updates of
    different indices of the tree give the same tree in either order. *)
Theorem revise_commute (lo hi : N) (t : SegTree) (i j : N) (v w : Z) :
  reachable Release lo hi t -> i <> j ->
  (lo <= i)%N -> (i < hi)%N -> (lo <= j)%N -> (j < hi)%N ->
  in_i32 v = true -> in_i32 w = true ->
  run_updates Release t [(i, v); (j, w)] = run_updates Release t [(j, w); (i, v)].
Proof.
  intros R Hij Hi1 Hi2 Hj1 Hj2 Hv Hw. apply reachable_good in R.
  pose proof (revise_good Release v lo hi t R Hv i Hi1 Hi2) as A1.
  destruct (revise Release t i v) as [t1 [e|]] eqn:E1; [destruct A1 as [A1 _]; discriminate A1|].
  destruct A1 as [G1 L1].
  pose proof (revise_good Release w lo hi t1 G1 Hw j Hj1 Hj2) as A12.
  destruct (revise Release t1 j w) as [t12 [e|]] eqn:E12; [destruct A12 as [A12 _]; discriminate A12|].
  destruct A12 as [G12 L12].
  pose proof (revise_good Release w lo hi t R Hw j Hj1 Hj2) as A2.
  destruct (revise Release t j w) as [t2 [e|]] eqn:E2; [destruct A2 as [A2 _]; discriminate A2|].
  destruct A2 as [G2 L2].
  pose proof (revise_good Release v lo hi t2 G2 Hv i Hi1 Hi2) as A21.
  destruct (revise Release t2 i v) as [t21 [e|]] eqn:E21; [destruct A21 as [A21 _]; discriminate A21|].
  destruct A21 as [G21 L21].
  simpl. rewrite E1, E12, E2, E21. simpl.
  f_equal. apply (good_unique Release lo hi t12 G12 t21 G21).
  intros k K1 K2. rewrite L12, L1, L21, L2 by lia.
  destruct (N.eqb_spec k j), (N.eqb_spec k i); subst; auto; congruence.
Qed.

Lemma revise_commute_witness :
  reachable Release 0 10 (demo_t Release) /\ (3 <> 6)%N /\
  run_updates Release (demo_t Release) [(3%N, 30); (6%N, 60)] =
  run_updates Release (demo_t Release) [(6%N, 60); (3%N, 30)].
Proof.
  split; [reach_demo|]. split; [discriminate|].
  apply (revise_commute 0 10); [reach_demo | discriminate | lia | lia | lia | lia
    | reflexivity | reflexivity].
Defined.

(** X7: with wrapping i32 addition (release profile), [revise(i, v)] with
    [i] inside the covered interval always returns, and the tree stays one
    the program can hold. *)
Theorem revise_release_total (lo hi : N) (t : SegTree) (i : N) (v : Z) :
  reachable Release lo hi t -> in_i32 v = true -> (lo <= i)%N -> (i < hi)%N ->
  exists t', revise Release t i v = (t', None) /\ reachable Release lo hi t'.
Proof.
  intros R Hv H1 H2.
  destruct (revise_release_completes lo hi t i v (reachable_good _ _ _ _ R) Hv H1 H2)
    as [t' [E _]].
  exists t'. split; [exact E|]. apply (reachable_revise Release lo hi t t' i v R Hv E).
Qed.

Lemma revise_release_total_witness :
  reachable Release 0 10 (demo_t Release) /\ in_i32 i32_max = true /\
  (0 <= 9)%N /\ (9 < 10)%N /\
  exists t', revise Release (demo_t Release) 9 i32_max = (t', None) /\
             reachable Release 0 10 t'.
Proof.
  split; [reach_demo|]. split; [reflexivity|]. split; [lia|]. split; [lia|].
  apply (revise_release_total 0 10); [reach_demo | reflexivity | lia | lia].
Defined.

(** X8: with overflow checks (debug profile), values are exact: the root
    value is the exact sum of the leaf values, and a query that returns
    gives the exact sum of the leaf values of its range. *)
Theorem debug_exact (lo hi : N) (t : SegTree) :
  reachable Debug lo hi t ->
  get_val t = range_sum (leafval t) lo hi /\
  forall a b s, ask Debug t a b = Ok s -> s = range_sum (leafval t) a b.
Proof.
  intros R. apply reachable_good in R.
  split; [apply (good_val_debug lo hi t R)|].
  intros a b s H.
  destruct (good_range Debug lo hi t R) as [Er _].
  destruct (N.leb_spec b a); [rewrite (ask_invalid Debug t lo hi) in H by (auto; lia); discriminate|].
  destruct (N.ltb_spec a lo); [rewrite (ask_invalid Debug t lo hi) in H by (auto; lia); discriminate|].
  destruct (N.ltb_spec hi b); [rewrite (ask_invalid Debug t lo hi) in H by (auto; lia); discriminate|].
  apply (ask_exact_debug lo hi t R a b s); auto; lia.
Qed.

Lemma debug_exact_witness :
  reachable Debug 0 10 (demo_t Debug) /\
  (get_val (demo_t Debug) = range_sum (leafval (demo_t Debug)) 0 10 /\
   forall a b s, ask Debug (demo_t Debug) a b = Ok s ->
   s = range_sum (leafval (demo_t Debug)) a b).
Proof.
  split; [reach_demo|].
  apply (debug_exact 0 10). reach_demo.
Defined.

(** X9: a tree covering [[lo, hi)] has [2 * (hi - lo) - 1] nodes. *)
Theorem node_count (p : profile) (lo hi : N) (t : SegTree) :
  reachable p lo hi t -> count_nodes t = (2 * (hi - lo) - 1)%N.
Proof.
  intros R. apply (good_count p lo hi t). apply reachable_good with (1 := R).
Qed.

Lemma node_count_witness :
  reachable Release 0 10 (demo_t Release) /\
  count_nodes (demo_t Release) = (2 * (10 - 0) - 1)%N.
Proof.
  split; [reach_demo|]. apply (node_count Release 0 10). reach_demo.
Defined.


